(** * statespace.py: state spaces over a cyclic enumeration

    A shallow embedding of [StateSpace] and [EnumStateSpace] of
    [statespace.py], with the part of Python's [enum] and [dict] that the two
    classes use, and the properties of [check], [update], [resolve] and
    [__str__] proved about it.

    Conventions.
    - A Python [int] is a [Z]; a [str] is a [string]; the tuple
      [basis_elements] is a [list string]; the dict [scalars] is a
      [gmap string _] (nothing in the program depends on the order of a dict).
    - A method is a computation in [Py], a state-and-exception monad over the
      instance: it returns a value or raises, and in both cases hands back the
      instance as the method left it.
    - A Python [float] is kept abstract: the program only ever calls [str] on
      one, so the type and its [str] are the variables of Section
      [StateSpaces]. *)

From Stdlib Require Import Ascii.
From stdpp Require Import gmap strings list fin_maps pretty.

(** ** Exceptions *)

(** The exceptions this program can raise, one constructor per raising site.
    None of them is a class of the repository: all are built in. *)
Inductive exn : Type :=
  | KeyError (key : string)
      (* [d[key]] on a dict without [key] *)
  | NotAValidMember (value : Z)
      (* [cls(value)]: "<value> is not a valid scalar_states" *)
  | NoMembers (value : Z)
      (* [cls(value)] on an Enum class that has no member at all *)
  | NameReused (member_name : string)
      (* [Enum(...)] given the same member name twice *)
  | ZeroDivisionError.
      (* [a % 0] *)

(** [cls(value)] on a memberless Enum is a failed value lookup ([ValueError])
    up to CPython 3.11; since 3.12 it is reported as a [TypeError]. *)
Inductive cpython : Type := Before_3_12 | Since_3_12.

(** [type(e).__name__] *)
Definition exn_class (py : cpython) (e : exn) : string :=
  match e with
  | KeyError _ => "KeyError"
  | NotAValidMember _ => "ValueError"
  | NoMembers _ => match py with Before_3_12 => "ValueError" | Since_3_12 => "TypeError" end
  | NameReused _ => "TypeError"
  | ZeroDivisionError => "ZeroDivisionError"
  end.

Inductive result (A : Type) : Type :=
  | Ok (a : A)
  | Raise (e : exn).
Arguments Ok {A} a.
Arguments Raise {A} e.

#[global] Instance result_ret : MRet result := @Ok.
#[global] Instance result_bind : MBind result := λ A B f r,
  match r with
  | Ok a => f a
  | Raise e => Raise e
  end.

(** ** The part of [enum] that is used *)

(** An Enum member, by what the program reads of it: [m.name] and
    [m.value]. *)
Record EnumMember : Type := Member { name : string; value : Z }.

#[global] Instance EnumMember_eq_dec : EqDecision EnumMember.
Proof. solve_decision. Defined.

(** An Enum class is its members in definition order. *)
Abbreviation EnumType := (list EnumMember).

(** The class body of the functional API: each [(name, value)] is stored
    under its name, and a name that is already a member is refused. *)
Fixpoint Enum_define (items : list (string * Z)) (classdict : EnumType) : result EnumType :=
  match items with
  | [] => Ok classdict
  | (member_name, member_value) :: items =>
      if bool_decide (member_name ∈ name <$> classdict)
      then Raise (NameReused member_name)
      else Enum_define items (classdict ++ [Member member_name member_value])
  end.

(** [Enum('scalar_states', names, start=start)] for a list (or tuple) of
    names: the member number [count] gets the value [start + count].

    Names that [enum] reserves (the empty name, ["mro"], and names written
    between underscores) are not modelled; see [member_name]. *)
Definition Enum (names : list string) (start : Z) : result EnumType :=
  Enum_define (imap (λ count member_name, (member_name, (start + Z.of_nat count)%Z)) names) [].

(** A name that [enum] turns into a member whatever the version: not empty,
    not ["mro"], and not starting with an underscore. *)
Definition member_name (s : string) : bool :=
  match s with
  | EmptyString => false
  | String c _ => negb (bool_decide (c = "_"%char)) && negb (bool_decide (s = "mro"))
  end.

(** [cls(value)]: the member that has this value. *)
Definition Enum_call (cls : EnumType) (v : Z) : result EnumMember :=
  match cls with
  | [] => Raise (NoMembers v)
  | _ =>
      match list_find (λ m, value m = v) cls with
      | Some (_, m) => Ok m
      | None => Raise (NotAValidMember v)
      end
  end.

(** [len(cls)] *)
Definition Enum_len (cls : EnumType) : Z := Z.of_nat (length cls).

(** [m in cls], for [m] an Enum member: whether [cls] has it. *)
Definition Enum_contains (cls : EnumType) (m : EnumMember) : bool :=
  bool_decide (m ∈ cls).

(** ** The part of [dict] and [int] that is used *)

(** [d[key]] *)
Definition dict_getitem {V} (d : gmap string V) (key : string) : result V :=
  match d !! key with
  | Some v => Ok v
  | None => Raise (KeyError key)
  end.

(** [{key: v for key in keys}] *)
Definition dict_fromkeys {V} (keys : list string) (v : V) : gmap string V :=
  foldl (λ d key, <[key := v]> d) ∅ keys.

(** [a % b] on ints: the remainder has the sign of [b], as [Z.modulo]. *)
Definition int_mod (a b : Z) : result Z :=
  if bool_decide (b = 0%Z) then Raise ZeroDivisionError else Ok (a `mod` b)%Z.

(** [sep.join(parts)] *)
Fixpoint str_join (sep : string) (parts : list string) : string :=
  match parts with
  | [] => ""
  | [s] => s
  | s :: parts => s +:+ sep +:+ str_join sep parts
  end.

(** ** The two classes *)

(** The fields of [StateSpace], for scalars of type [V]. *)
Record StateSpace (V : Type) : Type := Build_StateSpace {
  basis_elements : list string;
  scalars : gmap string V;
}.
Arguments Build_StateSpace {V} _ _.
Arguments basis_elements {V} _.
Arguments scalars {V} _.

(** An [EnumStateSpace] is a [StateSpace] whose scalars are Enum members,
    with the field [enum_states] added. *)
Record EnumStateSpace : Type := Build_EnumStateSpace {
  super :> StateSpace EnumMember;
  enum_states : EnumType;
}.

(** [self.scalars = d] *)
Definition set_scalars (d : gmap string EnumMember) (self : EnumStateSpace) : EnumStateSpace :=
  Build_EnumStateSpace (Build_StateSpace (basis_elements self) d) (enum_states self).

(** A method body: run on an instance, it returns or raises, and leaves the
    instance in some state. *)
Definition Py (A : Type) : Type := EnumStateSpace → result A * EnumStateSpace.

Definition ret {A} (a : A) : Py A := λ self, (Ok a, self).
Definition bind {A B} (c : Py A) (f : A → Py B) : Py B := λ self,
  match c self with
  | (Ok a, self') => f a self'
  | (Raise e, self') => (Raise e, self')
  end.

Declare Scope py_scope.
Delimit Scope py_scope with py.
Bind Scope py_scope with Py.
Notation "x ← y ; z" := (bind y%py (λ x, z%py))
  (at level 20, y at level 100, z at level 200, only parsing) : py_scope.

(** reading [self] *)
Definition get_self : Py EnumStateSpace := λ self, (Ok self, self).
(** [self.scalars[key] = v] *)
Definition scalars_setitem (key : string) (v : EnumMember) : Py () :=
  λ self, (Ok (), set_scalars (<[key := v]> (scalars self)) self).
(** an expression that may raise *)
Definition eval {A} (r : result A) : Py A := λ self, (r, self).

(** What a method call hands back to the caller. *)
Inductive pyvalue : Type :=
  | PyNone
  | PyBool (b : bool)
  | PyInt (n : Z)
  | PyStr (s : string)
  | PyStrs (l : list string).

(** The float literal of the file's last, commented demonstration, [3.3]:
    a one-point stand-in for [float] wherever a closed term needs one. *)
Inductive float_literal : Type := float_3_3.
Definition float_literal_str (x : float_literal) : string := "3.3".

Section StateSpaces.

(** Python's [float], and [str] on it. *)
Context {float : Type} (float_str : float → string).

(** A basis element as the caller gives it: [str | int | float]. *)
Inductive element : Type :=
  | of_str (s : string)
  | of_int (n : Z)
  | of_float (x : float).

(** [str(e)] *)
Definition str (e : element) : string :=
  match e with
  | of_str s => s
  | of_int n => pretty n
  | of_float x => float_str x
  end.

(** *** [StateSpace] *)

(** [StateSpace.__init__]: the elements are stringified and every scalar
    starts at the int 0. *)
Definition StateSpace_init (basis_elements : list element) : StateSpace Z :=
  let stringified_elements := str <$> basis_elements in
  Build_StateSpace stringified_elements (dict_fromkeys stringified_elements 0%Z).

(** [StateSpace.__contains__]: [x in self.basis_elements]; an int or a float
    equals no string. *)
Definition StateSpace_contains (x : element) : Py bool :=
  self ← get_self;
  ret (match x with
        | of_str s => bool_decide (s ∈ basis_elements self)
        | _ => false
        end).

(** [StateSpace.__len__] *)
Definition StateSpace_len : Py Z :=
  self ← get_self;
  ret (Z.of_nat (length (basis_elements self))).

(** [StateSpace.__iter__], as the list of what it yields *)
Definition StateSpace_iter : Py (list string) :=
  self ← get_self;
  ret (basis_elements self).

(** [__le__], [__lt__], [__gt__], [__ge__]: [other] counts by its length *)
Definition StateSpace_le (len_other : Z) : Py bool :=
  n ← StateSpace_len; ret (bool_decide (n ≤ len_other)%Z).
Definition StateSpace_lt (len_other : Z) : Py bool :=
  n ← StateSpace_len; ret (bool_decide (n < len_other)%Z).
Definition StateSpace_gt (len_other : Z) : Py bool :=
  n ← StateSpace_len; ret (bool_decide (n > len_other)%Z).
Definition StateSpace_ge (len_other : Z) : Py bool :=
  n ← StateSpace_len; ret (bool_decide (n >= len_other)%Z).

(** *** [EnumStateSpace] *)

(** [EnumStateSpace.__init__]: the instance, or the exception that ends the
    construction. *)
Definition EnumStateSpace_init (basis_elements : list element) (enum_states : list string)
    : result EnumStateSpace :=
  (* super().__init__(basis_elements=basis_elements) *)
  let 'Build_StateSpace self_basis_elements _ := StateSpace_init basis_elements in
  self_enum_states ← Enum enum_states 0;
  (* first value of enumeration is the origin state for each scalar *)
  origin_state ← Enum_call self_enum_states 0;
  (* initialize scalars with origin_state *)
  mret (Build_EnumStateSpace
          (Build_StateSpace self_basis_elements
             (dict_fromkeys self_basis_elements origin_state))
          self_enum_states).

(** The loop of [check] over [self.scalars.items()]. *)
Fixpoint check_items (enum_states : EnumType) (items : list (string * EnumMember)) : bool :=
  match items with
  | [] => true
  | (basis_name, state_name) :: items =>
      if negb (Enum_contains enum_states state_name) then false
      else check_items enum_states items
  end.

(** [EnumStateSpace.check] *)
Definition check : Py bool :=
  self ← get_self;
  ret (check_items (enum_states self) (map_to_list (scalars self))).

(** [EnumStateSpace.update] *)
Definition update (basis_element : element) : Py () :=
  (self ← get_self;
   let total_states := Enum_len (enum_states self) in
   let basis_elem := str basis_element in
   scalar_state ← eval (dict_getitem (scalars self) basis_elem);
   let int_value := value scalar_state in
   new_value ← eval (int_mod (int_value + 1) total_states);
   new_state ← eval (Enum_call (enum_states self) new_value);
   scalars_setitem basis_elem new_state)%py.

(** [EnumStateSpace.resolve] *)
Definition resolve : Py () := ret ().

(** The loop of [__str__] over [self.basis_elements]. *)
Fixpoint str_results (scalars : gmap string EnumMember) (keys : list string)
    : result (list string) :=
  match keys with
  | [] => Ok []
  | key :: keys =>
      state ← dict_getitem scalars key;
      let scalar := name state in
      results ← str_results scalars keys;
      mret ((scalar +:+ "<" +:+ key +:+ ">") :: results)
  end.

(** [EnumStateSpace.__str__] *)
Definition EnumStateSpace_str : Py string :=
  self ← get_self;
  results ← eval (str_results (scalars self) (basis_elements self));
  ret (str_join " + " results).

(** *** The methods, as one call interface *)

Inductive method : Type :=
  | m_check
  | m_update (basis_element : element)
  | m_resolve
  | m_str
  | m_contains (x : element)
  | m_len
  | m_iter
  | m_le (len_other : Z)
  | m_lt (len_other : Z)
  | m_gt (len_other : Z)
  | m_ge (len_other : Z).

(** [self.m(...)] *)
Definition call (m : method) : Py pyvalue :=
  match m with
  | m_check => b ← check; ret (PyBool b)
  | m_update basis_element => _ ← update basis_element; ret PyNone
  | m_resolve => _ ← resolve; ret PyNone
  | m_str => s ← EnumStateSpace_str; ret (PyStr s)
  | m_contains x => b ← StateSpace_contains x; ret (PyBool b)
  | m_len => n ← StateSpace_len; ret (PyInt n)
  | m_iter => l ← StateSpace_iter; ret (PyStrs l)
  | m_le len_other => b ← StateSpace_le len_other; ret (PyBool b)
  | m_lt len_other => b ← StateSpace_lt len_other; ret (PyBool b)
  | m_gt len_other => b ← StateSpace_gt len_other; ret (PyBool b)
  | m_ge len_other => b ← StateSpace_ge len_other; ret (PyBool b)
  end.

(** [update] on each element of [xs] in turn, up to the first exception. *)
Fixpoint update_each (xs : list element) : Py () :=
  match xs with
  | [] => ret ()
  | basis_element :: xs => _ ← update basis_element; update_each xs
  end.

(** *** The demonstration at the end of the file *)

(** [bar = EnumStateSpace(basis_elements=["e1", "e2", "e3"], enum_states=[...])] *)
Definition bar : result EnumStateSpace :=
  EnumStateSpace_init [of_str "e1"; of_str "e2"; of_str "e3"] ["state0"; "state1"; "state2"].

(** The calls on [bar] down to [print(bar)]: what [check], [resolve] and
    [str] returned. *)
Definition bar_calls : Py (bool * () * string) :=
  _ ← update (of_str "e1");
  _ ← update (of_str "e1");
  _ ← update (of_str "e1");
  _ ← update (of_str "e2");
  _ ← update (of_str "e3");
  _ ← update (of_str "e3");
  checked ← check;
  resolved ← resolve;
  printed ← EnumStateSpace_str;
  ret (checked, resolved, printed).

(** *** Instances *)

(** The members that [Enum] makes of [labels]: label number [i] with the
    value [i]. *)
Definition members (labels : list string) : EnumType :=
  imap (λ i label, Member label (Z.of_nat i)) labels.

(** What [__init__] establishes and [update] keeps: [self] is an instance
    over the enumeration [labels]. The labels are distinct names that [enum]
    accepts for members. *)
Record instance (labels : list string) (self : EnumStateSpace) : Prop := {
  instance_labels : labels ≠ [] ∧ NoDup labels ∧ Forall member_name labels;
  instance_enum : Enum labels 0 = Ok (enum_states self);
  instance_keys : ∀ key, is_Some (scalars self !! key) ↔ key ∈ basis_elements self;
  instance_scalars : ∀ key m, scalars self !! key = Some m → m ∈ enum_states self;
}.

(** *** What the classes are measured by *)

(** How many of the calls [update(x)], [x] in [xs], select the key [key]. *)
Definition times (key : string) (xs : list element) : nat :=
  length (filter (λ s, s = key) (str <$> xs)).

(** The loop of [StateSpace.__str__] over [self.basis_elements]; the scalars
    are the ints of [StateSpace.__init__]. *)
Fixpoint StateSpace_str_results (scalars : gmap string Z) (keys : list string)
    : result (list string) :=
  match keys with
  | [] => Ok []
  | key :: keys =>
      scalar ← dict_getitem scalars key;
      results ← StateSpace_str_results scalars keys;
      mret ((pretty scalar +:+ "<" +:+ key +:+ ">") :: results)
  end.

(** [StateSpace.__str__] *)
Definition StateSpace_str (self : StateSpace Z) : result string :=
  results ← StateSpace_str_results (scalars self) (basis_elements self);
  mret (str_join " + " results).

(** ** Properties *)

Implicit Types (self : EnumStateSpace) (m : EnumMember) (cls : EnumType).
Implicit Types (labels : list string) (key : string).

(** *** [Enum] *)

Lemma Enum_define_Ok items classdict cls :
  Enum_define items classdict = Ok cls →
  cls = classdict ++ ((λ item, Member item.1 item.2) <$> items).
Proof.
  revert classdict. induction items as [|[n v] items IH]; intros classdict; simpl.
  - intros [= <-]. by rewrite app_nil_r.
  - case_bool_decide; [done|]. intros ->%IH. by rewrite <-app_assoc.
Qed.

Lemma Enum_define_NoDup items classdict :
  NoDup ((name <$> classdict) ++ items.*1) →
  Enum_define items classdict = Ok (classdict ++ ((λ item, Member item.1 item.2) <$> items)).
Proof.
  revert classdict. induction items as [|[n v] items IH]; intros classdict; simpl.
  - intros _. by rewrite app_nil_r.
  - intros Hnd. apply NoDup_app in Hnd as (Hc & Hdisj & Hi).
    apply NoDup_cons in Hi as [Hn Hi].
    rewrite bool_decide_false by (intros Hin; apply (Hdisj _ Hin); left).
    rewrite IH, <-app_assoc; [done|].
    rewrite fmap_app. simpl. apply NoDup_app. split_and!.
    + apply NoDup_app. split_and!; [done| |apply NoDup_singleton].
      intros y Hy ->%list_elem_of_singleton. apply (Hdisj _ Hy). left.
    + intros y [Hy| ->%list_elem_of_singleton]%elem_of_app Hyi; [|done].
      apply (Hdisj _ Hy). by right.
    + done.
Qed.

Lemma Enum_define_distinct labels (start : Z) cls :
  Enum labels start = Ok cls → NoDup labels.
Proof.
  unfold Enum.
  cut (∀ items classdict,
         Enum_define items classdict = Ok cls →
         NoDup (name <$> classdict) → NoDup ((name <$> classdict) ++ items.*1)).
  { intros Hcut Hdef. apply Hcut in Hdef; [|constructor]. simpl in Hdef.
    replace ((imap _ labels).*1) with labels in Hdef; [done|].
    apply list_eq. intros i. rewrite list_lookup_fmap, list_lookup_imap.
    by destruct (labels !! i). }
  induction items as [|[n v] items IH]; intros classdict; simpl.
  - intros _ ?. by rewrite app_nil_r.
  - case_bool_decide as Hn; [done|]. intros Hdef Hnd.
    apply IH in Hdef.
    + by rewrite fmap_app, <-app_assoc in Hdef.
    + rewrite fmap_app. simpl. apply NoDup_app. split_and!; [done| |apply NoDup_singleton].
      by intros y Hy ->%list_elem_of_singleton.
Qed.

Lemma Enum_items labels (start : Z) :
  (λ item : string * Z, Member item.1 item.2)
    <$> imap (λ count member_name, (member_name, (start + Z.of_nat count)%Z)) labels
  = imap (λ i label, Member label (start + Z.of_nat i)) labels.
Proof.
  apply list_eq. intros i. rewrite list_lookup_fmap, !list_lookup_imap.
  by destruct (labels !! i).
Qed.

Lemma Enum_Ok labels cls : Enum labels 0 = Ok cls → cls = members labels.
Proof. unfold Enum. intros ->%Enum_define_Ok. simpl. by rewrite Enum_items. Qed.

Lemma Enum_NoDup labels : NoDup labels → Enum labels 0 = Ok (members labels).
Proof.
  intros Hnd. unfold Enum. rewrite Enum_define_NoDup.
  - simpl. by rewrite Enum_items.
  - simpl. replace ((imap _ labels).*1) with labels; [done|].
    apply list_eq. intros i. rewrite list_lookup_fmap, list_lookup_imap.
    by destruct (labels !! i).
Qed.

Lemma members_lookup labels (i : nat) :
  members labels !! i = (λ label, Member label (Z.of_nat i)) <$> labels !! i.
Proof. apply list_lookup_imap. Qed.

Lemma members_length labels : length (members labels) = length labels.
Proof. apply length_imap. Qed.

Lemma elem_of_members labels m :
  m ∈ members labels ↔ ∃ i : nat, labels !! i = Some (name m) ∧ value m = Z.of_nat i.
Proof.
  rewrite list_elem_of_lookup. split.
  - intros [i Hi]. exists i. rewrite members_lookup in Hi.
    destruct (labels !! i) as [label|]; simplify_eq/=. done.
  - intros (i & Hi & Hv). exists i. rewrite members_lookup, Hi. simpl.
    rewrite <-Hv. by destruct m.
Qed.

Lemma Enum_call_members labels (i : nat) label :
  labels !! i = Some label →
  Enum_call (members labels) (Z.of_nat i) = Ok (Member label (Z.of_nat i)).
Proof.
  intros Hi. unfold Enum_call.
  destruct (members labels) as [|m0 cls] eqn:Hcls.
  { apply (f_equal length) in Hcls. rewrite members_length in Hcls.
    apply lookup_lt_Some in Hi. simpl in Hcls. lia. }
  rewrite <-Hcls.
  destruct (list_find _ _) as [[j m]|] eqn:Hfind.
  - apply list_find_Some in Hfind as (Hj & Hv & _).
    rewrite members_lookup in Hj. destruct (labels !! j) as [l|] eqn:Hl; [|done].
    injection Hj as <-. simpl in Hv. apply Nat2Z.inj in Hv as ->. by simplify_eq.
  - apply list_find_None in Hfind. rewrite Forall_forall in Hfind.
    exfalso. apply (Hfind (Member label (Z.of_nat i))); [|done].
    apply elem_of_members. eauto.
Qed.

(** *** [dict] *)

Lemma lookup_dict_fromkeys {V} keys (v : V) key :
  dict_fromkeys keys v !! key = if decide (key ∈ keys) then Some v else None.
Proof.
  unfold dict_fromkeys.
  cut (∀ d : gmap string V,
         foldl (λ d key, <[key := v]> d) d keys !! key
         = if decide (key ∈ keys) then Some v else d !! key).
  { intros ->. by case_decide. }
  induction keys as [|k keys IH]; intros d; simpl.
  - done.
  - rewrite IH, lookup_insert. clear IH.
    destruct (decide (k = key)) as [->|Hk].
    + rewrite (decide_True (P := key ∈ key :: keys)) by apply list_elem_of_here.
      by destruct (decide _).
    + destruct (decide (key ∈ keys)).
      * rewrite decide_True; [done|by apply list_elem_of_further].
      * rewrite decide_False; [done|]. by intros [->|?]%elem_of_cons.
Qed.

(** *** [__init__] *)

Lemma init_Ok basis_elements first labels :
  NoDup (first :: labels) →
  EnumStateSpace_init basis_elements (first :: labels)
  = Ok (Build_EnumStateSpace
          (Build_StateSpace (str <$> basis_elements)
             (dict_fromkeys (str <$> basis_elements) (Member first 0)))
          (members (first :: labels))).
Proof.
  intros Hnd. unfold EnumStateSpace_init. rewrite (Enum_NoDup _ Hnd). simpl.
  reflexivity.
Qed.

Lemma init_instance basis_elements labels self :
  Forall member_name labels →
  EnumStateSpace_init basis_elements labels = Ok self →
  instance labels self.
Proof.
  intros Hnames Hinit.
  assert (∃ cls m, Enum labels 0 = Ok cls ∧ Enum_call cls 0 = Ok m ∧
            self = Build_EnumStateSpace
                     (Build_StateSpace (str <$> basis_elements)
                        (dict_fromkeys (str <$> basis_elements) m)) cls)
    as (cls & m & Hcls & Hm & ->).
  { unfold EnumStateSpace_init in Hinit.
    destruct (Enum labels 0) as [cls|] eqn:Hcls; [|done]. simpl in Hinit.
    destruct (Enum_call cls 0) as [m|] eqn:Hm; [|done]. simpl in Hinit.
    injection Hinit as <-. eauto. }
  assert (m ∈ cls) as Hin.
  { unfold Enum_call in Hm. destruct cls as [|m0 cls]; [done|].
    destruct (list_find _ _) as [[j m']|] eqn:Hfind; [|done]. injection Hm as ->.
    apply list_find_Some in Hfind as (Hj & _). by eapply list_elem_of_lookup_2. }
  split; simpl.
  - split_and!; [|by eapply Enum_define_distinct|done].
    intros ->. injection Hcls as <-. by apply elem_of_nil in Hin.
  - done.
  - intros key. rewrite lookup_dict_fromkeys. case_decide; [by eauto|].
    split; [by intros [? ?]|done].
  - intros key m'. rewrite lookup_dict_fromkeys. case_decide; naive_solver.
Qed.

(** *** [check] *)

Lemma check_items_true cls items :
  check_items cls items = true ↔ ∀ key m, (key, m) ∈ items → m ∈ cls.
Proof.
  induction items as [|[key m] items IH]; simpl.
  - split; [|done]. by intros _ ? ? ?%elem_of_nil.
  - unfold Enum_contains. case_bool_decide as Hm; simpl.
    + rewrite IH. split.
      * intros Hall key' m' [[= -> ->]|?]%elem_of_cons; eauto.
      * intros Hall key' m' ?. apply (Hall key'). by right.
    + split; [done|]. intros Hall. destruct Hm. apply (Hall key). left.
Qed.

Lemma check_returns self :
  ∃ b, check self = (Ok b, self) ∧
       (b = true ↔ ∀ key m, scalars self !! key = Some m → m ∈ enum_states self).
Proof.
  eexists. split; [reflexivity|]. rewrite check_items_true.
  by setoid_rewrite elem_of_map_to_list.
Qed.

Lemma check_instance labels self : instance labels self → check self = (Ok true, self).
Proof.
  intros Hinst. destruct (check_returns self) as (b & -> & Hb).
  do 2 f_equal. apply Hb, Hinst.
Qed.

(** *** [update] *)

Lemma set_scalars_id self key m :
  scalars self !! key = Some m → set_scalars (<[key := m]> (scalars self)) self = self.
Proof. intros Hm. rewrite insert_id by done. by destruct self as [[? ?] ?]. Qed.

Lemma update_KeyError self x :
  scalars self !! str x = None → update x self = (Raise (KeyError (str x)), self).
Proof.
  intros Hx. unfold update, bind, get_self, eval, dict_getitem. simpl. by rewrite Hx.
Qed.

Lemma update_Ok labels self x m :
  instance labels self →
  scalars self !! str x = Some m →
  let new_value := ((value m + 1) `mod` Z.of_nat (length labels))%Z in
  ∃ label,
    labels !! Z.to_nat new_value = Some label ∧
    update x self
    = (Ok (), set_scalars (<[str x := Member label new_value]> (scalars self)) self).
Proof.
  intros [(Hne & _) Henum _ _] Hx new_value.
  apply Enum_Ok in Henum.
  assert (0 < Z.of_nat (length labels))%Z as HN by (destruct labels; [done|simpl; lia]).
  assert (0 ≤ new_value < Z.of_nat (length labels))%Z as Hrange
    by (by apply Z.mod_pos_bound).
  destruct (lookup_lt_is_Some_2 labels (Z.to_nat new_value)) as [label Hlabel]; [lia|].
  exists label. split; [done|].
  unfold update, bind, get_self, eval, dict_getitem, int_mod, scalars_setitem, Enum_len.
  simpl. rewrite Hx, Henum, members_length.
  rewrite bool_decide_false by lia. fold new_value.
  rewrite <-(Z2Nat.id new_value) at 1 by lia.
  rewrite (Enum_call_members _ _ _ Hlabel), Z2Nat.id by lia. done.
Qed.

Lemma update_instance labels self x r self' :
  instance labels self → update x self = (r, self') → instance labels self'.
Proof.
  intros Hinst Hupd. destruct (scalars self !! str x) as [m|] eqn:Hx.
  - destruct (update_Ok _ _ _ _ Hinst Hx) as (label & Hlabel & Heq).
    rewrite Heq in Hupd. injection Hupd as <- <-.
    destruct Hinst as [Hlabels Henum Hkeys Hscalars]. split; simpl; [done..| |].
    + intros key. rewrite <-Hkeys, lookup_insert. case_decide; subst; [|done].
      rewrite Hx. by split; eauto.
    + intros key m'. rewrite lookup_insert. case_decide; [|by eauto].
      intros [= <-]. rewrite (Enum_Ok _ _ Henum). apply elem_of_members.
      exists (Z.to_nat ((value m + 1) `mod` Z.of_nat (length labels))). simpl.
      split; [done|]. rewrite Z2Nat.id; [done|].
      apply Z.mod_pos_bound. destruct Hlabels as [? _]. destruct labels; [done|simpl; lia].
  - rewrite update_KeyError in Hupd by done. by injection Hupd as <- <-.
Qed.

(** *** The methods other than [update] *)

Lemma call_readonly meth self :
  (∀ y, meth ≠ m_update y) → (call meth self).2 = self.
Proof.
  intros Hmeth. destruct meth; try done.
  - by destruct (Hmeth basis_element).
  - unfold call, EnumStateSpace_str, bind, get_self, eval.
    by destruct (str_results _ _).
Qed.

(** *** Repeated [update] *)

Lemma update_each_cons x xs self self' :
  update x self = (Ok (), self') → update_each (x :: xs) self = update_each xs self'.
Proof. intros Hupd. simpl. unfold bind. by rewrite Hupd. Qed.

Lemma update_each_replicate labels (n : nat) self x m :
  instance labels self →
  scalars self !! str x = Some m →
  let index := ((value m + Z.of_nat n) `mod` Z.of_nat (length labels))%Z in
  ∃ label,
    labels !! Z.to_nat index = Some label ∧
    update_each (replicate n x) self
    = (Ok (), set_scalars (<[str x := Member label index]> (scalars self)) self).
Proof.
  revert self m. induction n as [|n IH]; intros self m Hinst Hx index.
  - pose proof (instance_scalars _ _ Hinst _ _ Hx) as Hm.
    rewrite (Enum_Ok _ _ (instance_enum _ _ Hinst)) in Hm.
    apply elem_of_members in Hm as (i & Hi & Hv).
    assert (index = value m) as ->.
    { unfold index. rewrite Z.add_0_r, Hv. apply Z.mod_small.
      apply lookup_lt_Some in Hi. lia. }
    exists (name m). rewrite Hv, Nat2Z.id. split; [done|]. rewrite <-Hv. simpl.
    replace (Member (name m) (value m)) with m by (by destruct m).
    by rewrite set_scalars_id.
  - destruct (update_Ok _ _ _ _ Hinst Hx) as (label1 & Hlabel1 & Hupd).
    pose proof (update_instance _ _ _ _ _ Hinst Hupd) as Hinst1.
    simpl replicate. rewrite (update_each_cons _ _ _ _ Hupd).
    edestruct (IH _ (Member label1 ((value m + 1) `mod` Z.of_nat (length labels)))
                 Hinst1) as (label & Hlabel & Heach).
    { simpl. by rewrite lookup_insert_eq. }
    simpl in Hlabel, Heach.
    assert (((value m + 1) `mod` Z.of_nat (length labels) + Z.of_nat n)
              `mod` Z.of_nat (length labels) = index)%Z as Hindex.
    { unfold index. rewrite Zplus_mod_idemp_l. f_equal. lia. }
    rewrite Hindex in Hlabel, Heach. exists label. split; [done|].
    rewrite Heach. unfold set_scalars. simpl. by rewrite insert_insert_eq.
Qed.

Lemma update_each_valid labels self xs :
  instance labels self →
  Forall (λ x, str x ∈ basis_elements self) xs →
  ∃ self', update_each xs self = (Ok (), self') ∧ instance labels self'.
Proof.
  revert self. induction xs as [|x xs IH]; intros self Hinst Hxs.
  - by exists self.
  - apply Forall_cons in Hxs as [Hx Hxs].
    apply (instance_keys _ _ Hinst) in Hx as [m Hm].
    destruct (update_Ok _ _ _ _ Hinst Hm) as (label & _ & Hupd).
    rewrite (update_each_cons _ _ _ _ Hupd).
    apply IH; [by eapply update_instance|done].
Qed.

(** ** The claims *)

(** C1. On an instance over an enumeration of N labels, [update] on a basis
    element whose scalar is at index i returns normally and leaves that
    element's scalar at the member of index (i + 1) mod N; and a method call
    after which the scalars differ from before is a call of [update]. *)
Theorem update_advances_index labels self x m :
  instance labels self →
  scalars self !! str x = Some m →
  (∃ self' m',
      update x self = (Ok (), self') ∧
      scalars self' !! str x = Some m' ∧
      m' ∈ enum_states self' ∧
      value m' = ((value m + 1) `mod` Z.of_nat (length labels))%Z) ∧
  (∀ meth s, scalars (call meth s).2 ≠ scalars s → ∃ y, meth = m_update y).
Proof.
  intros Hinst Hx. split.
  - destruct (update_Ok _ _ _ _ Hinst Hx) as (label & Hlabel & Hupd).
    pose proof (update_instance _ _ _ _ _ Hinst Hupd) as Hinst'.
    eexists _, _. split; [exact Hupd|]. simpl. rewrite lookup_insert_eq.
    split_and!; [done| |done].
    apply (instance_scalars _ _ Hinst' (str x)). simpl. by rewrite lookup_insert_eq.
  - intros meth s Hne. destruct meth; try (by destruct Hne); [by eauto|].
    destruct Hne. by rewrite call_readonly.
Qed.

(** C2, as the code has it. Constructing an [EnumStateSpace] with no
    enumeration label raises at the lookup of the origin state,
    [self.enum_states(0)], whatever the basis elements: the exception is the
    built-in [ValueError] ([TypeError] since CPython 3.12), and the
    constructor hands back no instance. *)
Theorem init_without_labels elements :
  EnumStateSpace_init elements [] = Raise (NoMembers 0) ∧
  exn_class Before_3_12 (NoMembers 0) = "ValueError" ∧
  exn_class Since_3_12 (NoMembers 0) = "TypeError".
Proof. done. Qed.

(** C3, as the code has it. On an instance, [update] with a selector whose
    string is not a basis element raises the built-in [KeyError] of the dict
    lookup and leaves the instance, so every scalar, as it was. *)
Theorem update_unknown_element labels self x :
  instance labels self →
  str x ∉ basis_elements self →
  update x self = (Raise (KeyError (str x)), self) ∧
  ∀ py, exn_class py (KeyError (str x)) = "KeyError".
Proof.
  intros Hinst Hx. split; [|done]. apply update_KeyError.
  apply eq_None_not_Some. by rewrite (instance_keys _ _ Hinst).
Qed.



(** C4. On an instance over an enumeration of N labels, N calls of [update]
    on the same basis element all return and bring its scalar back to what
    it was; and N×k calls, for any k, leave the instance exactly as no call
    at all does. *)
Theorem update_cycle_closes labels self x m :
  instance labels self →
  scalars self !! str x = Some m →
  (∃ self',
      update_each (replicate (length labels) x) self = (Ok (), self') ∧
      scalars self' !! str x = Some m) ∧
  (∀ k : nat,
      update_each (replicate (length labels * k) x) self
      = update_each (replicate 0 x) self).
Proof.
  intros Hinst Hx.
  assert (∀ k : nat, update_each (replicate (length labels * k) x) self = (Ok (), self))
    as Hcycle.
  { intros k.
    destruct (update_each_replicate _ (length labels * k) _ _ _ Hinst Hx)
      as (label & Hlabel & ->).
    pose proof (instance_scalars _ _ Hinst _ _ Hx) as Hm.
    rewrite (Enum_Ok _ _ (instance_enum _ _ Hinst)) in Hm.
    apply elem_of_members in Hm as (i & Hi & Hv).
    assert (((value m + Z.of_nat (length labels * k)) `mod` Z.of_nat (length labels))
            = value m)%Z as Hsame.
    { rewrite Nat2Z.inj_mul, Z.mul_comm, Z_mod_plus_full, Hv.
      apply Z.mod_small. apply lookup_lt_Some in Hi. lia. }
    rewrite Hsame in Hlabel |- *. rewrite Hv, Nat2Z.id, Hi in Hlabel.
    injection Hlabel as <-.
    replace (Member (name m) (value m)) with m by (by destruct m).
    by rewrite set_scalars_id. }
  split.
  - exists self. split; [|done]. specialize (Hcycle 1%nat).
    by rewrite Nat.mul_1_r in Hcycle.
  - intros k. by rewrite Hcycle.
Qed.

(** C5, as the code has it. On an instance over an enumeration of N labels, a
    call of [update] on A that returns leaves the scalar of every key other
    than A's as it was, and the basis elements and the enumeration too: the
    one entry it assigns is A's, whose value is then another exactly when
    N is not 1. *)
Theorem update_isolated labels self a self' :
  instance labels self →
  update a self = (Ok (), self') →
  (∀ key, key ≠ str a → scalars self' !! key = scalars self !! key) ∧
  (∃ m', scalars self' = <[str a := m']> (scalars self)) ∧
  basis_elements self' = basis_elements self ∧
  enum_states self' = enum_states self ∧
  (scalars self' !! str a ≠ scalars self !! str a ↔ length labels ≠ 1%nat).
Proof.
  intros Hinst Hupd. destruct (scalars self !! str a) as [m|] eqn:Ha.
  2: { by rewrite update_KeyError in Hupd. }
  destruct (update_Ok _ _ _ _ Hinst Ha) as (label & Hlabel & Heq).
  rewrite Heq in Hupd. injection Hupd as <-. simpl.
  split_and!; [|by eauto|done|done|].
  { intros key Hkey. by rewrite lookup_insert_ne. }
  rewrite lookup_insert_eq.
  pose proof (instance_scalars _ _ Hinst _ _ Ha) as Hm.
  rewrite (Enum_Ok _ _ (instance_enum _ _ Hinst)) in Hm.
  apply elem_of_members in Hm as (i & Hi & Hv).
  pose proof (lookup_lt_Some _ _ _ Hi) as Hlt.
  destruct (decide (length labels = 1%nat)) as [H1|H1].
  - split; [|done]. intros Hne. destruct Hne.
    rewrite H1 in Hlabel |- *. rewrite Z.mod_1_r in Hlabel |- *.
    assert (i = 0%nat) as -> by lia.
    change (Z.to_nat 0) with 0%nat in Hlabel. change (Z.of_nat 0) with 0%Z in Hv.
    rewrite Hi in Hlabel. injection Hlabel as <-. rewrite <-Hv. by destruct m.
  - split; [done|]. intros _ [= Hsame]. apply (f_equal value) in Hsame.
    simpl in Hsame. rewrite Hv in Hsame.
    destruct (decide (i + 1 < length labels)%nat).
    + rewrite Z.mod_small in Hsame; lia.
    + assert (Z.of_nat i + 1 = Z.of_nat (length labels))%Z as Hwrap by lia.
      rewrite Hwrap, Z_mod_same_full in Hsame. lia.
Qed.

(** C8. From an instance constructed over any enumeration, every sequence of
    [update] calls on basis elements of the instance runs to its end without
    an exception, and [check()] returns [True] after it; and on every
    instance [check()] returns [True] before a call of [update] and after
    it, however the call ends. *)
Theorem check_after_updates elements labels self xs :
  Forall member_name labels →
  EnumStateSpace_init elements labels = Ok self →
  Forall (λ x, str x ∈ basis_elements self) xs →
  (∃ self', update_each xs self = (Ok (), self') ∧ check self' = (Ok true, self')) ∧
  (∀ s x r s',
      instance labels s → update x s = (r, s') →
      check s = (Ok true, s) ∧ check s' = (Ok true, s')).
Proof.
  intros Hnames Hinit Hxs. pose proof (init_instance _ _ _ Hnames Hinit) as Hinst.
  split.
  - destruct (update_each_valid _ _ _ Hinst Hxs) as (self' & Heach & Hinst').
    exists self'. split; [done|]. by eapply check_instance.
  - intros s x r s' Hs Hupd. split; eapply check_instance; [done|].
    by eapply update_instance.
Qed.

(** C9. The demonstration: [bar] is constructed; the three calls of [update]
    on e1, one on e2 and two on e3 return; then [str(bar)] is
    ["state0<e1> + state1<e2> + state2<e3>"], [check()] returns [True], and
    [resolve()] returns [None] and leaves the instance as it was. *)
Theorem bar_demonstration :
  ∃ bar0 bar6,
    bar = Ok bar0 ∧
    update_each [of_str "e1"; of_str "e1"; of_str "e1";
                 of_str "e2"; of_str "e3"; of_str "e3"] bar0 = (Ok (), bar6) ∧
    EnumStateSpace_str bar6 = (Ok "state0<e1> + state1<e2> + state2<e3>", bar6) ∧
    check bar6 = (Ok true, bar6) ∧
    call m_resolve bar6 = (Ok PyNone, bar6) ∧
    bar_calls bar0 = (Ok (true, (), "state0<e1> + state1<e2> + state2<e3>"), bar6).
Proof. eexists _, _. split_and!; vm_compute; reflexivity. Qed.

(** C10. On an instance, [update] looks its selector up by the selector's
    string: it returns exactly when that string is a basis element, two
    selectors with the same string do the same, and so do the int 3 and
    the string "3". *)
Theorem update_stringifies labels self x :
  instance labels self →
  ((update x self).1 = Ok () ↔ str x ∈ basis_elements self) ∧
  (∀ y, str y = str x → update y self = update x self) ∧
  update (of_int 3) self = update (of_str "3") self.
Proof.
  intros Hinst. split_and!.
  - rewrite <-(instance_keys _ _ Hinst). split.
    + intros Hok. destruct (scalars self !! str x) as [m|] eqn:Hx; [by eauto|].
      by rewrite update_KeyError in Hok.
    + intros [m Hx]. by destruct (update_Ok _ _ _ _ Hinst Hx) as (label & _ & ->).
  - intros y Hy. unfold update. by rewrite Hy.
  - done.
Qed.

(** ** Further properties *)

(** *** Helpers *)

Lemma update_each_app xs ys self :
  update_each (xs ++ ys) self
  = match update_each xs self with
    | (Ok _, self') => update_each ys self'
    | (Raise e, self') => (Raise e, self')
    end.
Proof.
  revert self. induction xs as [|x xs IH]; intros self; [done|].
  simpl. unfold bind. destruct (update x self) as [[[]|e] s]; [apply IH|done].
Qed.

Lemma update_fields x self :
  basis_elements (update x self).2 = basis_elements self ∧
  enum_states (update x self).2 = enum_states self.
Proof.
  unfold update, bind, get_self, eval, scalars_setitem. simpl.
  destruct (dict_getitem _ _); [|done].
  destruct (int_mod _ _); [|done].
  by destruct (Enum_call _ _).
Qed.

Lemma update_each_fields xs self :
  basis_elements (update_each xs self).2 = basis_elements self ∧
  enum_states (update_each xs self).2 = enum_states self.
Proof.
  revert self. induction xs as [|x xs IH]; intros self; [done|].
  simpl. unfold bind. pose proof (update_fields x self) as [Hb He].
  destruct (update x self) as [[[]|e] s]; simpl in *; [|done].
  destruct (IH s) as [-> ->]. done.
Qed.

Lemma times_cons key x xs :
  times key (x :: xs) = if decide (str x = key) then S (times key xs) else times key xs.
Proof.
  unfold times. rewrite fmap_cons, filter_cons. by case_decide.
Qed.

Lemma update_each_counts labels self xs :
  instance labels self →
  Forall (λ x, str x ∈ basis_elements self) xs →
  ∃ self',
    update_each xs self = (Ok (), self') ∧
    instance labels self' ∧
    basis_elements self' = basis_elements self ∧
    ∀ key m, scalars self !! key = Some m →
      ∃ m', scalars self' !! key = Some m' ∧
            value m' = ((value m + Z.of_nat (times key xs))
                          `mod` Z.of_nat (length labels))%Z.
Proof.
  revert self. induction xs as [|x xs IH]; intros self Hinst Hxs.
  - exists self. split_and!; [done..|]. intros key m Hm. exists m. split; [done|].
    pose proof (instance_scalars _ _ Hinst _ _ Hm) as Hin.
    rewrite (Enum_Ok _ _ (instance_enum _ _ Hinst)) in Hin.
    apply elem_of_members in Hin as (i & Hi & ->).
    unfold times. simpl. rewrite Z.add_0_r, Z.mod_small; [done|].
    apply lookup_lt_Some in Hi. lia.
  - apply Forall_cons in Hxs as [Hx Hxs].
    pose proof Hx as [mx Hmx]%(instance_keys _ _ Hinst).
    destruct (update_Ok _ _ _ _ Hinst Hmx) as (label & _ & Hupd).
    pose proof (update_instance _ _ _ _ _ Hinst Hupd) as Hinst1.
    rewrite (update_each_cons _ _ _ _ Hupd).
    edestruct (IH _ Hinst1 Hxs) as (self' & Heach & Hinst' & Hbasis & Hcount).
    exists self'. split_and!; [done..|].
    intros key m Hm. rewrite times_cons.
    destruct (decide (str x = key)) as [<-|Hne].
    + edestruct (Hcount (str x)) as (m' & Hm' & Hv).
      { simpl. apply lookup_insert_eq. }
      exists m'. split; [done|]. rewrite Hv. simpl.
      assert (mx = m) as -> by congruence.
      rewrite Zplus_mod_idemp_l. f_equal. lia.
    + edestruct (Hcount key m) as (m' & Hm' & Hv).
      { simpl. by rewrite lookup_insert_ne. }
      by exists m'.
Qed.

Lemma instance_ext labels self1 self2 :
  instance labels self1 →
  instance labels self2 →
  basis_elements self1 = basis_elements self2 →
  (∀ key m1 m2, scalars self1 !! key = Some m1 → scalars self2 !! key = Some m2 →
                value m1 = value m2) →
  self1 = self2.
Proof.
  intros H1 H2 Hbasis Hvalues.
  assert (enum_states self1 = enum_states self2) as Henum.
  { pose proof (instance_enum _ _ H1). pose proof (instance_enum _ _ H2). congruence. }
  assert (scalars self1 = scalars self2) as Hscalars.
  { apply map_eq. intros key.
    destruct (scalars self1 !! key) as [m1|] eqn:Hm1,
             (scalars self2 !! key) as [m2|] eqn:Hm2; [| | |done].
    - pose proof (Hvalues _ _ _ Hm1 Hm2) as Hv.
      pose proof (instance_scalars _ _ H1 _ _ Hm1) as Hin1.
      pose proof (instance_scalars _ _ H2 _ _ Hm2) as Hin2.
      rewrite (Enum_Ok _ _ (instance_enum _ _ H1)) in Hin1.
      rewrite (Enum_Ok _ _ (instance_enum _ _ H2)) in Hin2.
      apply elem_of_members in Hin1 as (i1 & Hi1 & Hv1).
      apply elem_of_members in Hin2 as (i2 & Hi2 & Hv2).
      assert (i1 = i2) as -> by lia.
      destruct m1, m2. simpl in *. congruence.
    - assert (is_Some (scalars self2 !! key)) as [? ?]; [|congruence].
      rewrite (instance_keys _ _ H2), <-Hbasis, <-(instance_keys _ _ H1). eauto.
    - assert (is_Some (scalars self1 !! key)) as [? ?]; [|congruence].
      rewrite (instance_keys _ _ H1), Hbasis, <-(instance_keys _ _ H2). eauto. }
  destruct self1 as [[b1 s1] e1], self2 as [[b2 s2] e2]. simpl in *. congruence.
Qed.

Lemma Enum_define_Raise items classdict e :
  Enum_define items classdict = Raise e →
  NoDup (name <$> classdict) →
  ∃ before n v after,
    items = before ++ (n, v) :: after ∧
    e = NameReused n ∧
    n ∈ (name <$> classdict) ++ before.*1 ∧
    NoDup ((name <$> classdict) ++ before.*1).
Proof.
  revert classdict. induction items as [|[n v] items IH]; intros classdict; simpl; [done|].
  case_bool_decide as Hn.
  - intros [= <-] Hnd. exists [], n, v, items. simpl. by rewrite app_nil_r.
  - intros Hdef Hnd. apply IH in Hdef as (before & n' & v' & after & -> & -> & Hin & Hnd').
    + exists ((n, v) :: before), n', v', after. simpl.
      rewrite fmap_app, <-app_assoc in Hin, Hnd'. done.
    + rewrite fmap_app. simpl. apply NoDup_app. split_and!; [done| |apply NoDup_singleton].
      by intros y Hy ->%list_elem_of_singleton.
Qed.

Lemma Enum_item_names labels (start : Z) :
  (imap (λ count member_name, (member_name, (start + Z.of_nat count)%Z)) labels).*1 = labels.
Proof.
  apply list_eq. intros i. rewrite list_lookup_fmap, list_lookup_imap.
  by destruct (labels !! i).
Qed.

Lemma init_Ok_inv elements labels self :
  EnumStateSpace_init elements labels = Ok self →
  ∃ first rest,
    labels = first :: rest ∧ NoDup labels ∧
    self = Build_EnumStateSpace
             (Build_StateSpace (str <$> elements)
                (dict_fromkeys (str <$> elements) (Member first 0)))
             (members labels).
Proof.
  intros Hinit.
  assert (NoDup labels) as Hnd.
  { unfold EnumStateSpace_init in Hinit. simpl in Hinit.
    destruct (Enum labels 0) as [cls|] eqn:Hcls; [|done].
    by eapply Enum_define_distinct. }
  destruct labels as [|first rest]; [done|].
  exists first, rest. split_and!; [done..|].
  rewrite init_Ok in Hinit by done. by injection Hinit as <-.
Qed.

Lemma dom_dict_fromkeys {V} keys (v : V) :
  dom (dict_fromkeys keys v) = list_to_set keys.
Proof.
  apply set_eq. intros key.
  rewrite elem_of_dom, lookup_dict_fromkeys, elem_of_list_to_set.
  case_decide; [by split; eauto|]. by split; [intros [? ?]|].
Qed.

Lemma size_list_to_set_le (keys : list string) :
  (size (list_to_set (C := gset string) keys) ≤ length keys)%nat ∧
  (size (list_to_set (C := gset string) keys) = length keys ↔ NoDup keys).
Proof.
  induction keys as [|key keys [IHle IHeq]]; cbn [list_to_set foldr length].
  - rewrite size_empty. split; [done|]. split; [constructor|done].
  - destruct (decide (key ∈ keys)) as [Hin|Hin].
    + rewrite (subseteq_union_1_L {[key]})
        by (by apply singleton_subseteq_l, elem_of_list_to_set).
      split; [lia|]. split; [lia|]. by intros [? ?]%NoDup_cons.
    + rewrite size_union, size_singleton
        by (apply disjoint_singleton_l; by rewrite elem_of_list_to_set).
      split; [lia|]. rewrite NoDup_cons. split.
      * intros Hsize. split; [done|]. apply IHeq. lia.
      * intros [_ Hnd]. apply IHeq in Hnd. lia.
Qed.

Lemma size_dict_fromkeys {V} keys (v : V) :
  (size (dict_fromkeys keys v) ≤ length keys)%nat ∧
  (size (dict_fromkeys keys v) = length keys ↔ NoDup keys).
Proof.
  rewrite <-size_dom, dom_dict_fromkeys. apply size_list_to_set_le.
Qed.

Lemma str_results_Ok scalars keys :
  (∀ key, key ∈ keys → is_Some (scalars !! key)) →
  ∃ parts,
    str_results scalars keys = Ok parts ∧
    Forall2 (λ key part,
               ∃ m, scalars !! key = Some m ∧ part = name m +:+ "<" +:+ key +:+ ">")
            keys parts.
Proof.
  induction keys as [|key keys IH]; intros Hkeys; simpl.
  - exists []. by split.
  - destruct (Hkeys key) as [m Hm]; [left|].
    destruct IH as (parts & -> & Hparts); [intros k Hk; apply Hkeys; by right|].
    unfold dict_getitem. rewrite Hm. simpl. eexists. split; [done|].
    constructor; [by eauto|done].
Qed.

Lemma str_results_fmap scalars keys (label : string → string) :
  (∀ key, key ∈ keys → ∃ m, scalars !! key = Some m ∧ name m = label key) →
  str_results scalars keys = Ok ((λ key, label key +:+ "<" +:+ key +:+ ">") <$> keys).
Proof.
  induction keys as [|key keys IH]; intros Hkeys; simpl; [done|].
  destruct (Hkeys key) as (m & Hm & Hname); [left|].
  rewrite IH by (intros k Hk; apply Hkeys; by right).
  unfold dict_getitem. rewrite Hm. simpl. by rewrite Hname.
Qed.

(** *** Sequences of [update] *)

(** X1. On an instance over N labels, a sequence of [update] calls on basis
    elements runs to its end, and leaves the scalar of every key at the
    member whose index is the old index plus the number of calls that
    selected this key, modulo N: the order of the calls plays no part. *)
Theorem update_each_adds_counts labels self xs :
  instance labels self →
  Forall (λ x, str x ∈ basis_elements self) xs →
  ∃ self',
    update_each xs self = (Ok (), self') ∧
    ∀ key m, scalars self !! key = Some m →
      ∃ m', scalars self' !! key = Some m' ∧
            m' ∈ enum_states self' ∧
            value m' = ((value m + Z.of_nat (times key xs))
                          `mod` Z.of_nat (length labels))%Z.
Proof.
  intros Hinst Hxs.
  destruct (update_each_counts _ _ _ Hinst Hxs) as (self' & Heach & Hinst' & _ & Hcount).
  exists self'. split; [done|]. intros key m Hm.
  destruct (Hcount _ _ Hm) as (m' & Hm' & Hv). exists m'.
  split_and!; [done| |done]. by eapply instance_scalars.
Qed.

(** X2. On an instance, two sequences of [update] calls on basis elements
    that select the same keys the same number of times, in whatever order
    and through whatever selectors (the int 3 or the string "3"), leave the
    very same instance. *)
Theorem update_each_any_order labels self xs ys :
  instance labels self →
  Forall (λ x, str x ∈ basis_elements self) xs →
  str <$> xs ≡ₚ str <$> ys →
  ∃ self', update_each xs self = (Ok (), self') ∧ update_each ys self = (Ok (), self').
Proof.
  intros Hinst Hxs Hperm.
  assert (Forall (λ y, str y ∈ basis_elements self) ys) as Hys.
  { apply (proj1 (Forall_fmap str (λ s, s ∈ basis_elements self) ys)).
    rewrite <-Hperm.
    by apply (proj2 (Forall_fmap str (λ s, s ∈ basis_elements self) xs)). }
  destruct (update_each_counts _ _ _ Hinst Hxs) as (sx & Hx & Hinstx & Hbx & Hcx).
  destruct (update_each_counts _ _ _ Hinst Hys) as (sy & Hy & Hinsty & Hby & Hcy).
  exists sx. split; [done|]. rewrite Hy. do 2 f_equal.
  apply (instance_ext labels); [done|done|congruence|].
  intros key my mx Hmy Hmx.
  assert (is_Some (scalars self !! key)) as [m Hm].
  { rewrite (instance_keys _ _ Hinst), <-Hbx, <-(instance_keys _ _ Hinstx). eauto. }
  destruct (Hcx _ _ Hm) as (mx' & Hmx' & Hvx).
  destruct (Hcy _ _ Hm) as (my' & Hmy' & Hvy).
  assert (mx' = mx) as -> by congruence.
  assert (my' = my) as -> by congruence. rewrite Hvx, Hvy.
  unfold times. by rewrite Hperm.
Qed.

(** X3. A sequence of [update] calls stops at the first selector that is no
    basis element, with [KeyError]: the calls before it stay applied, there
    is no rollback, and the calls after it are not made. *)
Theorem update_each_stops_at_unknown labels self xs bad ys :
  instance labels self →
  Forall (λ x, str x ∈ basis_elements self) xs →
  str bad ∉ basis_elements self →
  ∃ self',
    update_each xs self = (Ok (), self') ∧
    update_each (xs ++ bad :: ys) self = (Raise (KeyError (str bad)), self').
Proof.
  intros Hinst Hxs Hbad.
  destruct (update_each_counts _ _ _ Hinst Hxs) as (self' & Heach & Hinst' & Hbasis & _).
  exists self'. split; [done|]. rewrite update_each_app, Heach. simpl. unfold bind.
  rewrite update_KeyError; [done|]. apply eq_None_not_Some.
  by rewrite (instance_keys _ _ Hinst'), Hbasis.
Qed.

(** X4. [update] never touches the basis elements nor the enumeration, whether
    it returns or raises and whatever the state: after any sequence of
    [update] calls, [len], iteration, [in] and the four comparisons answer
    what they answered before. *)
Theorem update_each_keeps_collection xs self :
  let self' := (update_each xs self).2 in
  basis_elements self' = basis_elements self ∧
  enum_states self' = enum_states self ∧
  ∀ meth,
    meth ≠ m_check → meth ≠ m_str → (∀ y, meth ≠ m_update y) →
    (call meth self').1 = (call meth self).1.
Proof.
  intros self'. destruct (update_each_fields xs self) as [Hb He].
  split_and!; [done..|]. intros meth Hcheck Hstr Hupd.
  subst self'. destruct meth; try done; [by destruct (Hupd basis_element)|..];
    simpl;
    unfold StateSpace_contains, StateSpace_le, StateSpace_lt, StateSpace_gt,
      StateSpace_ge, StateSpace_len, StateSpace_iter, bind, get_self, ret; simpl;
    by rewrite Hb.
Qed.

(** *** Construction *)

(** X5. Construction returns an instance exactly when the enumeration labels
    are not empty and distinct. *)
Theorem init_returns_iff elements labels :
  Forall member_name labels →
  (∃ self, EnumStateSpace_init elements labels = Ok self) ↔ labels ≠ [] ∧ NoDup labels.
Proof.
  intros Hnames. split.
  - intros [self Hinit]. apply init_Ok_inv in Hinit as (first & rest & -> & Hnd & _).
    done.
  - intros [Hne Hnd]. destruct labels as [|first rest]; [done|].
    eexists. by apply init_Ok.
Qed.

(** X6. Construction with a label that repeats an earlier one raises the
    [TypeError] of [Enum] for the first such label, and returns no
    instance. *)
Theorem init_repeated_label elements labels :
  Forall member_name labels →
  ¬ NoDup labels →
  ∃ before n after,
    labels = before ++ n :: after ∧ NoDup before ∧ n ∈ before ∧
    EnumStateSpace_init elements labels = Raise (NameReused n) ∧
    ∀ py, exn_class py (NameReused n) = "TypeError".
Proof.
  intros _ Hdup. destruct (Enum labels 0) as [cls|e] eqn:Henum.
  { destruct Hdup. by eapply Enum_define_distinct. }
  pose proof Henum as Hdef. unfold Enum in Hdef.
  apply Enum_define_Raise in Hdef as (before & n & v & after & Hitems & -> & Hin & Hnd);
    [|constructor].
  apply (f_equal (fmap fst)) in Hitems.
  rewrite Enum_item_names, fmap_app in Hitems. simpl in Hitems, Hin, Hnd.
  exists (before.*1), n, (after.*1). split_and!; [done..| |done].
  unfold EnumStateSpace_init. simpl. by rewrite Henum.
Qed.

(** X7. [StateSpace.__init__] keeps the elements as their strings, in the
    order given and with repetitions, and gives the scalar 0 to each of these
    strings and to nothing else; there are as many scalars as elements
    exactly when no two elements have the same string, and fewer
    otherwise. *)
Theorem StateSpace_init_scalars elements :
  let self := StateSpace_init elements in
  basis_elements self = str <$> elements ∧
  (∀ key, scalars self !! key
          = if decide (key ∈ str <$> elements) then Some 0%Z else None) ∧
  (size (scalars self) ≤ length elements)%nat ∧
  (size (scalars self) = length elements ↔ NoDup (str <$> elements)).
Proof.
  simpl. split_and!; [done|by intros; apply lookup_dict_fromkeys|..].
  - rewrite <-(length_fmap str). apply size_dict_fromkeys.
  - rewrite <-(length_fmap str). apply size_dict_fromkeys.
Qed.

(** X8. On a constructed [EnumStateSpace], [len] is the number of elements
    given, repetitions counted, and iteration yields their strings in the
    order given; the scalars are one per distinct string, so there are
    [len] of them exactly when no two elements have the same string. *)
Theorem init_len_iter elements labels self :
  Forall member_name labels →
  EnumStateSpace_init elements labels = Ok self →
  StateSpace_len self = (Ok (Z.of_nat (length elements)), self) ∧
  StateSpace_iter self = (Ok (str <$> elements), self) ∧
  dom (scalars self) = list_to_set (str <$> elements) ∧
  (size (scalars self) ≤ length elements)%nat ∧
  (size (scalars self) = length elements ↔ NoDup (str <$> elements)).
Proof.
  intros _ (first & rest & _ & _ & ->)%init_Ok_inv.
  unfold StateSpace_len, StateSpace_iter, bind, get_self, ret. simpl.
  rewrite length_fmap. split_and!; [done|done|apply dom_dict_fromkeys|..].
  - rewrite <-(length_fmap str). apply size_dict_fromkeys.
  - rewrite <-(length_fmap str). apply size_dict_fromkeys.
Qed.

(** X9. [x in self] does not stringify: on a constructed instance it is
    [True] for a string exactly when the string is that of a given element,
    and [False] for every int and float, also for one that was given as a
    basis element and that [update] accepts. *)
Theorem contains_does_not_stringify elements labels self :
  Forall member_name labels →
  EnumStateSpace_init elements labels = Ok self →
  (∀ s, StateSpace_contains (of_str s) self
        = (Ok (bool_decide (s ∈ str <$> elements)), self)) ∧
  (∀ n, StateSpace_contains (of_int n) self = (Ok false, self)) ∧
  (∀ x, StateSpace_contains (of_float x) self = (Ok false, self)) ∧
  (∀ e, e ∈ elements → ∃ self', update e self = (Ok (), self')).
Proof.
  intros Hnames Hinit. pose proof (init_instance _ _ _ Hnames Hinit) as Hinst.
  pose proof Hinit as (first & rest & _ & _ & Hself)%init_Ok_inv.
  split_and!; [|done|done|].
  - intros s. unfold StateSpace_contains, bind, get_self, ret. simpl.
    by rewrite Hself.
  - intros e He.
    assert (str e ∈ basis_elements self) as Hin.
    { rewrite Hself. simpl. by apply list_elem_of_fmap_2. }
    apply (instance_keys _ _ Hinst) in Hin as [m Hm].
    destruct (update_Ok _ _ _ _ Hinst Hm) as (label & _ & Hupd). eauto.
Qed.


(** *** Display *)

(** X11. On an instance [str(self)] never raises and changes nothing: it is
    the parts joined by [" + "], one part per basis element, in order and
    with repetitions, each the name of the element's scalar, a label of the
    enumeration, followed by the element between angle brackets. *)
Theorem str_of_instance labels self :
  instance labels self →
  ∃ parts,
    EnumStateSpace_str self = (Ok (str_join " + " parts), self) ∧
    Forall2 (λ key part,
               ∃ m, scalars self !! key = Some m ∧ name m ∈ labels ∧
                    part = name m +:+ "<" +:+ key +:+ ">")
            (basis_elements self) parts.
Proof.
  intros Hinst.
  destruct (str_results_Ok (scalars self) (basis_elements self)) as (parts & Hparts & Hall).
  { intros key. by rewrite (instance_keys _ _ Hinst). }
  exists parts. split.
  - unfold EnumStateSpace_str, bind, get_self, eval, ret. by rewrite Hparts.
  - eapply Forall2_impl; [exact Hall|]. intros key part (m & Hm & ->).
    exists m. split_and!; [done| |done].
    pose proof (instance_scalars _ _ Hinst _ _ Hm) as Hin.
    rewrite (Enum_Ok _ _ (instance_enum _ _ Hinst)) in Hin.
    apply elem_of_members in Hin as (i & Hi & _). by eapply list_elem_of_lookup_2.
Qed.

(** X12. From construction over N labels, after any sequence of [update]
    calls on basis elements the scalar of an element is the member at index
    n mod N, n being the number of calls that selected it, and [str(self)]
    shows each element with the label of that index. *)
Theorem str_after_updates elements labels self xs :
  Forall member_name labels →
  EnumStateSpace_init elements labels = Ok self →
  Forall (λ x, str x ∈ basis_elements self) xs →
  let index e := (times (str e) xs `mod` length labels)%nat in
  ∃ self',
    update_each xs self = (Ok (), self') ∧
    (∀ e, e ∈ elements →
       ∃ label, labels !! index e = Some label ∧
                scalars self' !! str e = Some (Member label (Z.of_nat (index e)))) ∧
    EnumStateSpace_str self'
    = (Ok (str_join " + "
             ((λ e, default "" (labels !! index e) +:+ "<" +:+ str e +:+ ">")
                <$> elements)),
       self').
Proof.
  intros Hnames Hinit Hxs index.
  pose proof (init_instance _ _ _ Hnames Hinit) as Hinst.
  pose proof Hinit as (first & rest & Hlabels & _ & Hself)%init_Ok_inv.
  destruct (update_each_counts _ _ _ Hinst Hxs) as (self' & Heach & Hinst' & Hbasis & Hcount).
  assert (∀ e, e ∈ elements →
            ∃ label, labels !! index e = Some label ∧
                     scalars self' !! str e = Some (Member label (Z.of_nat (index e))))
    as Hscalars.
  { intros e He.
    destruct (Hcount (str e) (Member first 0)) as (m' & Hm' & Hv).
    { rewrite Hself. simpl. rewrite lookup_dict_fromkeys, decide_True; [done|].
      by apply list_elem_of_fmap_2. }
    pose proof (instance_scalars _ _ Hinst' _ _ Hm') as Hin.
    rewrite (Enum_Ok _ _ (instance_enum _ _ Hinst')) in Hin.
    apply elem_of_members in Hin as (i & Hi & Hvi).
    simpl in Hv. rewrite Z.add_0_l, <-Nat2Z.inj_mod in Hv.
    assert (i = index e) as -> by (unfold index; lia).
    exists (name m'). split; [done|]. rewrite Hm', <-Hvi. by destruct m'. }
  exists self'. split_and!; [done..|].
  unfold EnumStateSpace_str, bind, get_self, eval, ret.
  rewrite (str_results_fmap _ _
             (λ key, default "" (labels !! (times key xs `mod` length labels)%nat))).
  - rewrite Hbasis, Hself. simpl. by rewrite <-list_fmap_compose.
  - rewrite Hbasis, Hself. simpl. intros key (e & -> & He)%list_elem_of_fmap.
    destruct (Hscalars e He) as (label & Hlabel & Hm). eexists. split; [done|].
    simpl. unfold index in Hlabel. by rewrite Hlabel.
Qed.

(** X13. [StateSpace.__str__] on what [StateSpace.__init__] made never
    raises: it shows every element, in order, with the scalar 0. *)
Theorem StateSpace_str_init elements :
  StateSpace_str (StateSpace_init elements)
  = Ok (str_join " + " ((λ e, "0<" +:+ str e +:+ ">") <$> elements)).
Proof.
  unfold StateSpace_str, StateSpace_init. simpl.
  cut (∀ keys, (∀ key, key ∈ keys → key ∈ str <$> elements) →
         StateSpace_str_results (dict_fromkeys (str <$> elements) 0%Z) keys
         = Ok ((λ key, "0<" +:+ key +:+ ">") <$> keys)).
  { intros ->; [|done]. simpl. by rewrite <-list_fmap_compose. }
  induction keys as [|key keys IH]; intros Hkeys; simpl; [done|].
  rewrite IH by (intros k Hk; apply Hkeys; by right).
  unfold dict_getitem. rewrite lookup_dict_fromkeys, decide_True; [done|].
  apply Hkeys. left.
Qed.

(** *** The collection protocol and [Enum] *)

(** X14. The four comparisons always return and agree with one another:
    [<] is the contrary of [>=], [>] the contrary of [<=], and [<=] and
    [>=] hold together exactly for a collection of the same length, whatever
    its elements. *)
Theorem comparisons_agree len_other self :
  ∃ le lt gt ge : bool,
    StateSpace_le len_other self = (Ok le, self) ∧
    StateSpace_lt len_other self = (Ok lt, self) ∧
    StateSpace_gt len_other self = (Ok gt, self) ∧
    StateSpace_ge len_other self = (Ok ge, self) ∧
    lt = negb ge ∧ gt = negb le ∧
    (le && ge = true ↔ StateSpace_len self = (Ok len_other, self)).
Proof.
  eexists _, _, _, _. split_and!; [reflexivity..| | |].
  - simpl. repeat case_bool_decide; try done; lia.
  - simpl. repeat case_bool_decide; try done; lia.
  - simpl. unfold StateSpace_len, bind, get_self, ret. simpl.
    repeat case_bool_decide; simpl; split; try done; try lia.
    + intros _. do 2 f_equal. lia.
    + intros [= ?]. lia.
    + intros [= ?]. lia.
Qed.

(** X15. In the enumeration that [Enum] makes of the labels, members and
    values correspond one to one: looking up a member's value gives the
    member back, a successful lookup gives a member that has the value looked
    up, and the values that can be looked up are exactly 0 to N - 1. *)
Theorem Enum_value_round_trip labels cls :
  Forall member_name labels →
  Enum labels 0 = Ok cls →
  (∀ m, m ∈ cls → Enum_call cls (value m) = Ok m) ∧
  (∀ v m, Enum_call cls v = Ok m → m ∈ cls ∧ value m = v) ∧
  (∀ v, (0 ≤ v < Z.of_nat (length labels))%Z ↔ ∃ m, Enum_call cls v = Ok m).
Proof.
  intros _ ->%Enum_Ok.
  assert (∀ v m, Enum_call (members labels) v = Ok m → m ∈ members labels ∧ value m = v)
    as Hcall.
  { intros v m. unfold Enum_call. destruct (members labels) as [|m0 cls] eqn:Hcls; [done|].
    rewrite <-Hcls. destruct (list_find _ _) as [[j m']|] eqn:Hfind; [|done].
    intros [= ->]. apply list_find_Some in Hfind as (Hj & Hv & _).
    split; [by eapply list_elem_of_lookup_2|done]. }
  split_and!; [|done|].
  - intros m (i & Hi & Hv)%elem_of_members.
    rewrite Hv, (Enum_call_members _ _ _ Hi), <-Hv. by destruct m.
  - intros v. split.
    + intros Hv. destruct (lookup_lt_is_Some_2 labels (Z.to_nat v)) as [label Hl]; [lia|].
      exists (Member label v). rewrite <-(Z2Nat.id v) by lia.
      by apply Enum_call_members.
    + intros [m [(i & Hi & Hvi)%elem_of_members <-]%Hcall].
      apply lookup_lt_Some in Hi. lia.
Qed.

End StateSpaces.

(** ** The claims on the demonstration instance *)

Lemma bar_instance self :
  bar float_literal_str = Ok self → instance ["state0"; "state1"; "state2"] self.
Proof.
  intros Hbar. eapply (init_instance float_literal_str); [|exact Hbar].
  repeat constructor.
Qed.

Lemma update_advances_index_witness :
  ∃ self,
    bar float_literal_str = Ok self ∧
    ∃ self' m',
      update float_literal_str (of_str "e1") self = (Ok (), self') ∧
      scalars self' !! "e1" = Some m' ∧
      m' ∈ enum_states self' ∧
      value m' = 1%Z.
Proof.
  eexists. split; [reflexivity|].
  apply (update_advances_index float_literal_str
           ["state0"; "state1"; "state2"] _ (of_str "e1") (Member "state0" 0)).
  - by apply bar_instance.
  - reflexivity.
Defined.

Lemma init_without_labels_is_not_InvalidDomainError :
  EnumStateSpace_init float_literal_str [of_str "e"] [] = Raise (NoMembers 0) ∧
  ¬ ∃ py, exn_class py (NoMembers 0) = "InvalidDomainError".
Proof. split; [reflexivity|]. by intros [[] ?]. Qed.

Lemma update_unknown_element_witness :
  ∃ self,
    bar float_literal_str = Ok self ∧
    update float_literal_str (of_int 4) self = (Raise (KeyError "4"), self) ∧
    ∀ py, exn_class py (KeyError "4") = "KeyError".
Proof.
  eexists. split; [reflexivity|].
  apply (update_unknown_element float_literal_str
           ["state0"; "state1"; "state2"] _ (of_int 4)).
  - by apply bar_instance.
  - apply (bool_decide_unpack _). by vm_compute.
Defined.

Lemma update_unknown_element_is_not_UnknownBasisElementError :
  ∃ self,
    bar float_literal_str = Ok self ∧
    update float_literal_str (of_str "e4") self = (Raise (KeyError "e4"), self) ∧
    ¬ ∃ py, exn_class py (KeyError "e4") = "UnknownBasisElementError".
Proof. eexists. split_and!; [reflexivity..|]. by intros [[] ?]. Qed.

Lemma update_cycle_closes_witness :
  ∃ self,
    bar float_literal_str = Ok self ∧
    update_each float_literal_str (replicate 6 (of_str "e2")) self
    = update_each float_literal_str [] self.
Proof.
  eexists. split; [reflexivity|].
  apply (proj2 (update_cycle_closes float_literal_str
                  ["state0"; "state1"; "state2"] _ (of_str "e2") (Member "state0" 0)
                  (bar_instance _ eq_refl) eq_refl) 2%nat).
Defined.

Lemma update_isolated_witness :
  ∃ self self',
    bar float_literal_str = Ok self ∧
    update float_literal_str (of_str "e1") self = (Ok (), self') ∧
    (∀ key, key ≠ "e1" → scalars self' !! key = scalars self !! key) ∧
    (∃ m', scalars self' = <["e1" := m']> (scalars self)) ∧
    basis_elements self' = basis_elements self ∧
    enum_states self' = enum_states self ∧
    (scalars self' !! "e1" ≠ scalars self !! "e1" ↔ 3%nat ≠ 1%nat).
Proof.
  eexists _, _. split; [reflexivity|]. split; [vm_compute; reflexivity|].
  apply (update_isolated float_literal_str
           ["state0"; "state1"; "state2"] _ (of_str "e1")).
  - by apply bar_instance.
  - reflexivity.
Defined.

Lemma update_with_one_label_changes_nothing :
  ∃ self,
    EnumStateSpace_init float_literal_str [of_str "a"; of_str "b"] ["0"] = Ok self ∧
    update float_literal_str (of_str "a") self = (Ok (), self) ∧
    ¬ ∃ key,
        scalars (update float_literal_str (of_str "a") self).2 !! key
        ≠ scalars self !! key.
Proof. eexists. split_and!; [reflexivity..|]. by intros [key []]. Qed.



Lemma check_after_updates_witness :
  ∃ self,
    bar float_literal_str = Ok self ∧
    ∃ self',
      update_each float_literal_str
        [of_str "e1"; of_str "e1"; of_str "e1"; of_str "e2"; of_str "e3"; of_str "e3"]
        self = (Ok (), self') ∧
      check self' = (Ok true, self').
Proof.
  eexists. split; [reflexivity|].
  apply (check_after_updates float_literal_str
           [of_str "e1"; of_str "e2"; of_str "e3"] ["state0"; "state1"; "state2"]).
  - by repeat constructor.
  - reflexivity.
  - repeat constructor.
Defined.

Lemma update_stringifies_witness :
  ∃ self,
    EnumStateSpace_init float_literal_str [of_int 3; of_str "c"] ["0"; "1"] = Ok self ∧
    ((update float_literal_str (of_str "3") self).1 = Ok ()
     ↔ "3" ∈ basis_elements self) ∧
    (∀ y, str float_literal_str y = "3" →
          update float_literal_str y self = update float_literal_str (of_str "3") self) ∧
    update float_literal_str (of_int 3) self = update float_literal_str (of_str "3") self.
Proof.
  eexists. split; [reflexivity|].
  apply (update_stringifies float_literal_str ["0"; "1"] _ (of_str "3")).
  eapply (init_instance float_literal_str [of_int 3; of_str "c"]); [|reflexivity].
  by repeat constructor.
Defined.

(** ** The further properties on instances *)

Lemma update_each_adds_counts_witness :
  ∃ self,
    bar float_literal_str = Ok self ∧
    ∃ self',
      update_each float_literal_str [of_str "e3"; of_str "e1"; of_str "e3"] self
      = (Ok (), self') ∧
      ∀ key m, scalars self !! key = Some m →
        ∃ m', scalars self' !! key = Some m' ∧
              m' ∈ enum_states self' ∧
              value m' =
              ((value m
                + Z.of_nat (times float_literal_str key
                              [of_str "e3"; of_str "e1"; of_str "e3"]))
                 `mod` 3)%Z.
Proof.
  eexists. split; [reflexivity|].
  apply (update_each_adds_counts float_literal_str ["state0"; "state1"; "state2"]).
  - by apply bar_instance.
  - repeat constructor.
Defined.

Lemma update_each_any_order_witness :
  ∃ self,
    EnumStateSpace_init float_literal_str [of_int 3; of_str "c"] ["0"; "1"; "2"] = Ok self ∧
    ∃ self',
      update_each float_literal_str [of_int 3; of_str "c"; of_str "3"] self = (Ok (), self') ∧
      update_each float_literal_str [of_str "c"; of_str "3"; of_int 3] self = (Ok (), self').
Proof.
  eexists. split; [reflexivity|].
  apply (update_each_any_order float_literal_str ["0"; "1"; "2"]).
  - eapply (init_instance float_literal_str [of_int 3; of_str "c"]); [|reflexivity].
    by repeat constructor.
  - repeat constructor.
  - apply (bool_decide_unpack _). by vm_compute.
Defined.

Lemma update_each_stops_at_unknown_witness :
  ∃ self,
    bar float_literal_str = Ok self ∧
    ∃ self',
      update_each float_literal_str [of_str "e1"] self = (Ok (), self') ∧
      update_each float_literal_str ([of_str "e1"] ++ of_str "e4" :: [of_str "e2"]) self
      = (Raise (KeyError "e4"), self').
Proof.
  eexists. split; [reflexivity|].
  apply (update_each_stops_at_unknown float_literal_str ["state0"; "state1"; "state2"]).
  - by apply bar_instance.
  - repeat constructor.
  - apply (bool_decide_unpack _). by vm_compute.
Defined.

Lemma update_each_keeps_collection_witness :
  ∃ self,
    bar float_literal_str = Ok self ∧
    (call float_literal_str m_len
       (update_each float_literal_str [of_str "e1"; of_str "e4"] self).2).1
    = (call float_literal_str m_len self).1.
Proof.
  eexists. split; [reflexivity|].
  by apply (update_each_keeps_collection float_literal_str [of_str "e1"; of_str "e4"]).
Defined.

Lemma init_returns_iff_witness :
  (∃ self, EnumStateSpace_init float_literal_str [of_str "e"] ["0"; "1"] = Ok self)
  ↔ ["0"; "1"] ≠ [] ∧ NoDup ["0"; "1"].
Proof.
  apply (init_returns_iff float_literal_str [of_str "e"] ["0"; "1"]).
  by repeat constructor.
Defined.

Lemma init_repeated_label_witness :
  ∃ before n after,
    ["a"; "b"; "a"; "b"] = before ++ n :: after ∧ NoDup before ∧ n ∈ before ∧
    EnumStateSpace_init float_literal_str [of_str "e"] ["a"; "b"; "a"; "b"]
    = Raise (NameReused n) ∧
    ∀ py, exn_class py (NameReused n) = "TypeError".
Proof.
  apply (init_repeated_label float_literal_str [of_str "e"] ["a"; "b"; "a"; "b"]).
  - by repeat constructor.
  - apply (bool_decide_unpack _). by vm_compute.
Defined.

Lemma init_len_iter_witness :
  ∃ self,
    EnumStateSpace_init float_literal_str [of_int 3; of_str "3"; of_str "c"] ["0"] = Ok self ∧
    StateSpace_len self = (Ok 3%Z, self) ∧
    StateSpace_iter self = (Ok ["3"; "3"; "c"], self) ∧
    dom (scalars self) = list_to_set ["3"; "3"; "c"] ∧
    (size (scalars self) ≤ 3)%nat ∧
    (size (scalars self) = 3%nat ↔ NoDup ["3"; "3"; "c"]).
Proof.
  eexists. split; [reflexivity|].
  apply (init_len_iter float_literal_str [of_int 3; of_str "3"; of_str "c"] ["0"]).
  - by repeat constructor.
  - reflexivity.
Defined.

Lemma contains_does_not_stringify_witness :
  ∃ self,
    EnumStateSpace_init float_literal_str [of_int 3; of_float float_3_3] ["0"; "1"] = Ok self ∧
    StateSpace_contains (of_int (float := float_literal) 3) self = (Ok false, self) ∧
    StateSpace_contains (of_str (float := float_literal) "3") self = (Ok true, self) ∧
    ∃ self', update float_literal_str (of_int 3) self = (Ok (), self').
Proof.
  eexists. split; [reflexivity|].
  edestruct (contains_does_not_stringify float_literal_str
               [of_int 3; of_float float_3_3] ["0"; "1"]) as (Hstr & Hint & _ & Hupd).
  - by repeat constructor.
  - reflexivity.
  - split_and!; [apply Hint|apply Hstr|apply Hupd; left].
Defined.


Lemma str_of_instance_witness :
  ∃ self,
    bar float_literal_str = Ok self ∧
    ∃ parts,
      EnumStateSpace_str self = (Ok (str_join " + " parts), self) ∧
      Forall2 (λ key part,
                 ∃ m, scalars self !! key = Some m ∧
                      name m ∈ ["state0"; "state1"; "state2"] ∧
                      part = name m +:+ "<" +:+ key +:+ ">")
              (basis_elements self) parts.
Proof.
  eexists. split; [reflexivity|].
  apply (str_of_instance ["state0"; "state1"; "state2"]).
  by apply bar_instance.
Defined.

Lemma str_after_updates_witness :
  ∃ self,
    bar float_literal_str = Ok self ∧
    ∃ self',
      update_each float_literal_str
        [of_str "e3"; of_str "e1"; of_str "e3"; of_str "e1"; of_str "e1"; of_str "e2"]
        self = (Ok (), self') ∧
      EnumStateSpace_str self' = (Ok "state0<e1> + state1<e2> + state2<e3>", self').
Proof.
  eexists. split; [reflexivity|].
  match goal with
  | |- context [update_each _ _ ?self] =>
      destruct (str_after_updates float_literal_str
                  [of_str "e1"; of_str "e2"; of_str "e3"] ["state0"; "state1"; "state2"]
                  self
                  [of_str "e3"; of_str "e1"; of_str "e3";
                   of_str "e1"; of_str "e1"; of_str "e2"])
        as (self' & Heach & _ & Hstr)
  end.
  - by repeat constructor.
  - reflexivity.
  - repeat constructor.
  - exists self'. split; [exact Heach|exact Hstr].
Defined.

Lemma Enum_value_round_trip_witness :
  (∀ m, m ∈ members ["0"; "1"] → Enum_call (members ["0"; "1"]) (value m) = Ok m) ∧
  (∀ v m, Enum_call (members ["0"; "1"]) v = Ok m → m ∈ members ["0"; "1"] ∧ value m = v) ∧
  (∀ v, (0 ≤ v < 2)%Z ↔ ∃ m, Enum_call (members ["0"; "1"]) v = Ok m).
Proof.
  apply (Enum_value_round_trip ["0"; "1"]).
  - by repeat constructor.
  - reflexivity.
Defined.
